(** * Primary/replica product API: a shallow embedding of [server.py]

    The development follows the layout of the server module: configuration
    and pools, the [admin_required] decorator, the [run_query] executor, the
    route handlers and the route table.  The database driver and the engine
    behind it are external to the module; they are represented by a small
    transactional store (autocommit off) that understands exactly the
    statements the handlers emit. *)

From stdpp Require Import gmap strings list sorting.
From Stdlib Require Import Ascii ZArith Lia.

Open Scope string_scope.
Open Scope Z_scope.
Open Scope list_scope.

(** ** Values

    Parsed JSON bodies, and the Python values bound as statement
    parameters.  JSON numbers are restricted to integers: the handlers only
    ever coerce numbers with [int]. *)

#[warnings="-register-all"]
Inductive json : Type :=
  | JNull
  | JBool (b : bool)
  | JInt (z : Z)
  | JStr (s : string)
  | JArr (l : list json)
  | JObj (m : gmap string json).

(** Python exceptions that can travel through the handlers.  The payload is
    what [str(e)] renders. *)
Inductive exn : Type :=
  | ValueError (msg : string)
  | TypeError (msg : string)
  | AttributeError (msg : string)
  | PoolError (msg : string)
  | DatabaseError (msg : string).

Definition str_of_exn (e : exn) : string :=
  match e with
  | ValueError m | TypeError m | AttributeError m | PoolError m
  | DatabaseError m => m
  end.

(** [bool(x)] for a parsed body or a field: the test behind [if not data]. *)
Definition truthy (j : json) : bool :=
  match j with
  | JNull => false
  | JBool b => b
  | JInt z => negb (z =? 0)
  | JStr s => negb (String.eqb s "")
  | JArr l => match l with [] => false | _ => true end
  | JObj m => negb (bool_decide (m = ∅))
  end.

(** *** [int(...)] on text

    Base-10 grammar of Python's [int] restricted to ASCII: optional
    surrounding whitespace, an optional sign, then digits in which single
    underscores may separate digits. *)

Definition is_space (a : ascii) : bool :=
  let n := nat_of_ascii a in
  ((9 <=? n) && (n <=? 13) || (28 <=? n) && (n <=? 32))%nat.

Definition digit_of (a : ascii) : option Z :=
  let n := Z.of_nat (nat_of_ascii a) in
  if (48 <=? n) && (n <=? 57) then Some (n - 48) else None.

Fixpoint lstrip (s : string) : string :=
  match s with
  | String a s' => if is_space a then lstrip s' else s
  | EmptyString => s
  end.

Fixpoint all_space (s : string) : bool :=
  match s with
  | String a s' => is_space a && all_space s'
  | EmptyString => true
  end.

(** [digits_from acc after_digit s]: reads the remaining digits of the
    literal.  [after_digit] records that the previous character was a
    digit, which is when an underscore or the end of the literal may
    follow. *)
Fixpoint digits_from (acc : Z) (after_digit : bool) (s : string) : option Z :=
  match s with
  | EmptyString => if after_digit then Some acc else None
  | String a s' =>
      match digit_of a with
      | Some d => digits_from (10 * acc + d) true s'
      | None =>
          if after_digit then
            if Ascii.eqb a "_"%char then digits_from acc false s'
            else if all_space s then Some acc else None
          else None
      end
  end.

Definition int_of_str (s : string) : option Z :=
  match lstrip s with
  | String "-"%char s' => Z.opp <$> digits_from 0 false s'
  | String "+"%char s' => digits_from 0 false s'
  | s' => digits_from 0 false s'
  end.

(** [int(x)] on a value taken from a JSON body; [None] is the raised
    [ValueError]/[TypeError]. *)
Definition py_int (j : json) : option Z :=
  match j with
  | JInt z => Some z
  | JBool b => Some (if b then 1 else 0)
  | JStr s => int_of_str s
  | JNull | JArr _ | JObj _ => None
  end.

(** ** The store

    One table, [products], keyed by a generated identifier. *)

Record product : Type := mk_product {
  product_id : Z;
  product_name : string;
  price : Z;
  product_image_url : option string;
}.

(** An endpoint: reachability, the committed table and the identifier
    sequence (which, as sequences do, never rolls back). *)
Record database : Type := mk_database {
  db_up : bool;
  db_rows : list product;
  db_seq : Z;
}.

(** *** Statement text *)

Definition nl : string := String (ascii_of_nat 10) "".
Definition comma_join (l : list string) : string := String.concat ", " l.

Definition select_sql : string :=
  "SELECT product_id, product_name, price, product_image_url FROM products ORDER BY product_id LIMIT %s OFFSET %s".

Definition insert_sql : string :=
  nl +:+ "        INSERT INTO products (product_name, price, product_image_url)"
  +:+ nl +:+ "        VALUES (%s, %s, %s)"
  +:+ nl +:+ "        RETURNING product_id, product_name, price, product_image_url;"
  +:+ nl +:+ "    ".

(** The text [update_product] assembles from the selected columns. *)
Definition update_sql (cols : list string) : string :=
  "UPDATE products SET " +:+ comma_join ((λ col, col +:+ " = %s") <$> cols)
  +:+ " WHERE product_id = %s RETURNING product_id, product_name, price, product_image_url;".

(** *** What the engine accepts

    The engine recognises the statements of this module by their text: the
    select, the insert, and an update over a duplicate-free sequence of the
    three data columns. *)

Inductive stmt : Type :=
  | SSelect
  | SInsert
  | SUpdate (cols : list string).

Definition data_columns : list string :=
  ["product_name"; "price"; "product_image_url"].

Definition column_seqs : list (list string) :=
  [ ["product_name"]; ["price"]; ["product_image_url"];
    ["product_name"; "price"]; ["price"; "product_name"];
    ["product_name"; "product_image_url"]; ["product_image_url"; "product_name"];
    ["price"; "product_image_url"]; ["product_image_url"; "price"];
    ["product_name"; "price"; "product_image_url"];
    ["product_name"; "product_image_url"; "price"];
    ["price"; "product_name"; "product_image_url"];
    ["price"; "product_image_url"; "product_name"];
    ["product_image_url"; "product_name"; "price"];
    ["product_image_url"; "price"; "product_name"] ].

Definition parse_sql (q : string) : option stmt :=
  if String.eqb q select_sql then Some SSelect
  else if String.eqb q insert_sql then Some SInsert
  else SUpdate <$> List.find (λ cs, String.eqb q (update_sql cs)) column_seqs.

(** Column typing.  The model is strict: a text column takes a string, the
    nullable one also NULL, the integer column a 32-bit integer. *)
Definition as_text (v : json) : option string :=
  match v with JStr s => Some s | _ => None end.

Definition as_nullable_text (v : json) : option (option string) :=
  match v with JStr s => Some (Some s) | JNull => Some None | _ => None end.

Definition in_int4 (z : Z) : bool := (-2147483648 <=? z) && (z <=? 2147483647).
Definition in_int8 (z : Z) : bool :=
  (-9223372036854775808 <=? z) && (z <=? 9223372036854775807).

Definition as_integer (v : json) : option Z :=
  match v with JInt z => if in_int4 z then Some z else None | _ => None end.

(** [SET col = v] on one row. *)
Definition set_column (col : string) (v : json) (p : product) : option product :=
  if String.eqb col "product_name" then
    (λ s, mk_product (product_id p) s (price p) (product_image_url p)) <$> as_text v
  else if String.eqb col "price" then
    (λ z, mk_product (product_id p) (product_name p) z (product_image_url p)) <$> as_integer v
  else if String.eqb col "product_image_url" then
    (λ u, mk_product (product_id p) (product_name p) (price p) u) <$> as_nullable_text v
  else None.

Fixpoint apply_sets (sets : list (string * json)) (p : product) : option product :=
  match sets with
  | [] => Some p
  | (col, v) :: sets' => set_column col v p ≫= apply_sets sets'
  end.

Definition has_id (id : Z) (p : product) : bool := product_id p =? id.

Definition update_row (sets : list (string * json)) (id : Z) (p : product)
    : option product :=
  if has_id id p then apply_sets sets p else Some p.

Definition by_id (p q : product) : Prop := product_id p ≤ product_id q.
#[global] Instance by_id_dec p q : Decision (by_id p q) := Z_le_dec _ _.

(** Result rows, the table as the open transaction sees it afterwards, and
    the sequence. *)
Definition stmt_result : Type := list product * list product * Z.

Definition db_select (limit offset : Z) (work : list product) (seq : Z)
    : exn + stmt_result :=
  if negb (in_int8 limit && in_int8 offset) then
    inl (DatabaseError "bigint out of range")
  else if limit <? 0 then inl (DatabaseError "LIMIT must not be negative")
  else if offset <? 0 then inl (DatabaseError "OFFSET must not be negative")
  else inr (take (Z.to_nat limit) (drop (Z.to_nat offset) (merge_sort by_id work)),
            work, seq).

Definition db_insert (name pr image : json) (work : list product) (seq : Z)
    : exn + stmt_result :=
  match as_text name, as_integer pr, as_nullable_text image with
  | Some n, Some z, Some u =>
      let id := seq + 1 in
      if existsb (has_id id) work then
        inl (DatabaseError "duplicate key value violates unique constraint")
      else
        let row := mk_product id n z u in
        inr ([row], work ++ [row], id)
  | _, _, _ => inl (DatabaseError "invalid input for column")
  end.

Definition blank_row : product := mk_product 0 "" 0 None.

Definition db_update (cols : list string) (params : list json)
    (work : list product) (seq : Z) : exn + stmt_result :=
  let vals := take (length cols) params in
  match drop (length cols) params with
  | [JInt id] =>
      let sets := zip cols vals in
      (* the assignments are typed whether or not a row matches *)
      match apply_sets sets blank_row, mapM (update_row sets id) work with
      | Some _, Some work' => inr (filter (λ p, has_id id p = true) work', work', seq)
      | _, _ => inl (DatabaseError "invalid input for column")
      end
  | _ => inl (DatabaseError "wrong number of parameters")
  end.

Definition run_stmt (s : stmt) (params : list json) (work : list product)
    (seq : Z) : exn + stmt_result :=
  match s with
  | SSelect =>
      match params with
      | [JInt limit; JInt offset] => db_select limit offset work seq
      | _ => inl (DatabaseError "wrong parameters")
      end
  | SInsert =>
      match params with
      | [name; pr; image] => db_insert name pr image work seq
      | _ => inl (DatabaseError "wrong number of parameters")
      end
  | SUpdate cols => db_update cols params work seq
  end.

(** ** Connection pools

    A pool follows the driver's simple pool: a count of idle connections, the
    checked-out connections by key, and the key counter.  A checked-out
    connection is represented by the status of its transaction. *)

Inductive txn : Type :=
  | Idle
  | InTrans (work : list product)
  | InError.

Record pool : Type := mk_pool {
  pool_db : database;
  minconn : nat;
  maxconn : nat;
  pool_idle : nat;
  pool_used : gmap nat txn;
  pool_keys : nat;
}.

Definition with_used (p : pool) (used : gmap nat txn) : pool :=
  mk_pool (pool_db p) (minconn p) (maxconn p) (pool_idle p) used (pool_keys p).

Definition with_db (p : pool) (db : database) : pool :=
  mk_pool db (minconn p) (maxconn p) (pool_idle p) (pool_used p) (pool_keys p).

Definition with_rows (db : database) (rows : list product) : database :=
  mk_database (db_up db) rows (db_seq db).

Definition with_seq (db : database) (seq : Z) : database :=
  mk_database (db_up db) (db_rows db) seq.

(** [pool.getconn()]: a fresh key; an idle connection if there is one,
    otherwise a new connection unless the pool is at capacity. *)
Definition pool_getconn (p : pool) : (exn + nat) * pool :=
  let key := S (pool_keys p) in
  match pool_idle p with
  | S idle =>
      (inr key,
       mk_pool (pool_db p) (minconn p) (maxconn p) idle
               (<[key := Idle]> (pool_used p)) key)
  | O =>
      let p' := mk_pool (pool_db p) (minconn p) (maxconn p) O (pool_used p) key in
      if (size (pool_used p) =? maxconn p)%nat then
        (inl (PoolError "connection pool exhausted"), p')
      else if db_up (pool_db p) then
        (inr key, with_used p' (<[key := Idle]> (pool_used p)))
      else (inl (DatabaseError "could not connect to server"), p')
  end.

(** [cur.execute(query, params)] on the connection checked out under
    [key]; the result set is what [cur.fetchall()] returns. *)
Definition pool_execute (key : nat) (query : string) (params : list json)
    (p : pool) : (exn + list product) * pool :=
  match pool_used p !! key with
  | None => (inl (DatabaseError "connection already closed"), p)
  | Some st =>
      let failed := with_used p (<[key := InError]> (pool_used p)) in
      if negb (db_up (pool_db p)) then
        (inl (DatabaseError "server closed the connection unexpectedly"), failed)
      else
        match st with
        | InError => (inl (DatabaseError "current transaction is aborted"), p)
        | _ =>
            let work := match st with InTrans t => t | _ => db_rows (pool_db p) end in
            match parse_sql query with
            | None => (inl (DatabaseError "syntax error"), failed)
            | Some s =>
                match run_stmt s params work (db_seq (pool_db p)) with
                | inl e => (inl e, failed)
                | inr (rows, work', seq') =>
                    (inr rows,
                     with_db (with_used p (<[key := InTrans work']> (pool_used p)))
                             (with_seq (pool_db p) seq'))
                end
            end
        end
  end.

(** [conn.commit()] *)
Definition pool_commit (key : nat) (p : pool) : (exn + unit) * pool :=
  match pool_used p !! key with
  | Some (InTrans work) =>
      (inr (), with_db (with_used p (<[key := Idle]> (pool_used p)))
                       (with_rows (pool_db p) work))
  | Some InError => (inr (), with_used p (<[key := Idle]> (pool_used p)))
  | _ => (inr (), p)
  end.

(** [pool.putconn(conn)]: the connection leaves the checked-out set; an
    open or failed transaction is rolled back (or dies with the closed
    connection), so its work is dropped with the entry. *)
Definition pool_putconn (key : nat) (p : pool) : (exn + unit) * pool :=
  match pool_used p !! key with
  | None => (inl (PoolError "trying to put unkeyed connection"), p)
  | Some _ =>
      (inr (),
       mk_pool (pool_db p) (minconn p) (maxconn p)
               (if (pool_idle p <? minconn p)%nat then S (pool_idle p) else pool_idle p)
               (delete key (pool_used p)) (pool_keys p))
  end.

(** ** The process: two module-level pools and a trace of driver calls *)

Inductive role : Type := Primary | Replica.

Inductive event : Type :=
  | GetConn (r : role) (key : nat)
  | Execute (r : role) (key : nat) (query : string) (params : list json)
  | Commit (r : role) (key : nat)
  | PutConn (r : role) (key : nat).

Record world : Type := mk_world {
  primary_pool : pool;
  replica_pool : pool;
  trace : list event;
}.

Definition the_pool (r : role) (w : world) : pool :=
  match r with Primary => primary_pool w | Replica => replica_pool w end.

Definition set_pool (r : role) (p : pool) (w : world) : world :=
  match r with
  | Primary => mk_world p (replica_pool w) (trace w)
  | Replica => mk_world (primary_pool w) p (trace w)
  end.

(** Computations over the process state that may raise. *)
Definition M (A : Type) : Type := world → (exn + A) * world.

Definition ret {A} (a : A) : M A := λ w, (inr a, w).
Definition raise {A} (e : exn) : M A := λ w, (inl e, w).
Definition bind {A B} (m : M A) (k : A → M B) : M B :=
  λ w, match m w with
       | (inr a, w') => k a w'
       | (inl e, w') => (inl e, w')
       end.

Notation "'do' x <- m ; k" := (bind m (λ x, k))
  (at level 10, x name, m at level 100, k at level 200).
Notation "'do_' m ; k" := (bind m (λ _, k))
  (at level 10, m at level 100, k at level 200).

(** [try: m except Exception as e: ...]: the exception becomes a value. *)
Definition try {A} (m : M A) : M (exn + A) :=
  λ w, let '(r, w') := m w in (inr r, w').

(** [try: m finally: cleanup] *)
Definition finally {A} (m : M A) (cleanup : M unit) : M A :=
  λ w, let '(r, w1) := m w in
       match cleanup w1 with
       | (inr _, w2) => (r, w2)
       | (inl e, w2) => (inl e, w2)
       end.

Definition log (e : event) : M unit :=
  λ w, (inr (), mk_world (primary_pool w) (replica_pool w) (trace w ++ [e])).

Definition on_pool {A} (r : role) (f : pool → (exn + A) * pool) : M A :=
  λ w, let '(a, p) := f (the_pool r w) in (a, set_pool r p w).

Definition getconn (r : role) : M nat :=
  do key <- on_pool r pool_getconn;
  do_ log (GetConn r key);
  ret key.

Definition execute (r : role) (key : nat) (query : string) (params : list json)
    : M (list product) :=
  do_ log (Execute r key query params);
  on_pool r (pool_execute key query params).

Definition commit (r : role) (key : nat) : M unit :=
  do_ log (Commit r key);
  on_pool r (pool_commit key).

Definition putconn (r : role) (key : nat) : M unit :=
  do_ log (PutConn r key);
  on_pool r (pool_putconn key).

(** ** [run_query] *)
Definition run_query (pool : role) (query : string) (params : list json)
    (fetch : bool) : M (option (list product)) :=
  do conn <- getconn pool;
  finally
    (do cur <- execute pool conn query params;
     if fetch then ret (Some cur)
     else do_ commit pool conn; ret None)
    (putconn pool conn).

(** ** Requests and responses *)

Record request : Type := mk_request {
  req_args : gmap string string;      (* query string *)
  req_headers : gmap string string;
  req_json : option json;             (* get_json(force=True, silent=True) *)
}.

(** What a view function produces: a response, or an exception nobody
    caught, which the framework turns into a 500. *)
Inductive outcome : Type :=
  | Response (body : json) (status : Z)
  | Unhandled (e : exn).

Definition status_of (o : outcome) : Z :=
  match o with Response _ st => st | Unhandled _ => 500 end.

Definition jsonify (items : list (string * json)) : json :=
  JObj (list_to_map items).

Definition json_of_text (u : option string) : json :=
  match u with Some s => JStr s | None => JNull end.

(** The dictionary built from a result row [r[0..3]]. *)
Definition product_dict (r : product) : json :=
  jsonify [("product_id", JInt (product_id r));
           ("product_name", JStr (product_name r));
           ("price", JInt (price r));
           ("product_image_url", json_of_text (product_image_url r))].

(** [d.get(k)]: a missing key reads as [None]. *)
Definition dict_get (m : gmap string json) (k : string) : json :=
  default JNull (m !! k).

Definition isinstance_str (j : json) : bool :=
  match j with JStr _ => true | _ => false end.

(** ** [admin_required] *)

(** [s.strip()] *)
Definition strip (s : string) : string :=
  String.rev (lstrip (String.rev (lstrip s))).

Definition bearer : string := "Bearer ".

Definition nonempty (token : option string) : bool :=
  match token with Some s => negb (String.eqb s "") | None => false end.

Definition request_token (req : request) : option string :=
  let token := req_headers req !! "X-Admin-Token" in
  if negb (nonempty token) then
    let auth := default "" (req_headers req !! "Authorization") in
    if String.prefix bearer auth then
      Some (strip (String.substring (String.length bearer)
                     (String.length auth - String.length bearer) auth))
    else token
  else token.

Definition unauthorized : outcome :=
  Response (jsonify [("error", JStr "unauthorized")]) 401.

Definition admin_required (ADMIN_TOKEN : string) (f : request → M outcome)
    : request → M outcome :=
  λ req,
    let token := request_token req in
    if negb (nonempty token) || negb (bool_decide (token = Some ADMIN_TOKEN))
    then ret unauthorized
    else f req.

(** ** Endpoints *)

Definition int_arg (v : option string) (dflt : Z) : option Z :=
  match v with Some s => int_of_str s | None => Some dflt end.

Definition error_response (msg : string) (status : Z) : outcome :=
  Response (jsonify [("error", JStr msg)]) status.

Definition failure_response (msg : string) (e : exn) : outcome :=
  Response (jsonify [("error", JStr msg); ("detail", JStr (str_of_exn e))]) 500.

Definition products_response (rows : option (list product)) : outcome :=
  match rows with
  | Some rs => Response (jsonify [("products", JArr (product_dict <$> rs))]) 200
  | None => Unhandled (TypeError "'NoneType' object is not iterable")
  end.

(** [sql.SQL(text).as_string(context)]: the driver returns the wrapped text
    and does not look at the context it is given. *)
Definition as_string (text : string) : M string := ret text.

(** [GET /products].  The first attempt composes the statement object to
    text inside the [try]; the handler's [except] branch retries with the
    literal text. *)
Definition get_products (req : request) : M outcome :=
  match int_arg (req_args req !! "limit") 100 with
  | None => ret (error_response "limit/offset must be integers" 400)
  | Some limit =>
  match int_arg (req_args req !! "offset") 0 with
  | None => ret (error_response "limit/offset must be integers" 400)
  | Some offset =>
      do first <- try (do q <- as_string select_sql;
                       run_query Replica q [JInt limit; JInt offset] true);
      match first with
      | inr rows => ret (products_response rows)
      | inl _ =>
          do second <- try (run_query Replica select_sql [JInt limit; JInt offset] true);
          match second with
          | inr rows => ret (products_response rows)
          | inl ex => ret (failure_response "failed to query replica" ex)
          end
      end
  end end.

Definition no_attribute (attr : string) : exn :=
  AttributeError ("object has no attribute '" +:+ attr +:+ "'").

(** [POST /admin/products] *)
Definition create_product (req : request) : M outcome :=
  match req_json req with
  | None => ret (error_response "missing json body" 400)
  | Some data =>
      if negb (truthy data) then ret (error_response "missing json body" 400)
      else
        match data with
        | JObj m =>
            let name := dict_get m "product_name" in
            let image := dict_get m "product_image_url" in
            if negb (truthy name) || negb (isinstance_str name) then
              ret (error_response "product_name required" 400)
            else
              match py_int (dict_get m "price") with
              | None => ret (error_response "price must be an integer" 400)
              | Some pr =>
                  do r <- try (run_query Primary insert_sql [name; JInt pr; image] true);
                  match r with
                  | inr (Some (created :: _)) =>
                      ret (Response (jsonify [("product", product_dict created)]) 201)
                  | inr _ => ret (error_response "insert failed" 500)
                  | inl e => ret (failure_response "failed to insert" e)
                  end
              end
        | _ => ret (Unhandled (no_attribute "get"))
        end
  end.

Definition allowed : gset string :=
  {[ "product_name"; "price"; "product_image_url" ]}.

(** One turn of the loop over [updates.items()]: the price is coerced,
    any other value passes through; [None] is the early 400. *)
Definition coerce_value (item : string * json) : option json :=
  let '(col, val) := item in
  if String.eqb col "price" then JInt <$> py_int val else Some val.

Definition coerce_params (updates : list (string * json)) : option (list json) :=
  mapM coerce_value updates.

(** [PATCH /admin/products/<int:product_id>].  The selected columns are
    the members of the set [data.keys() & allowed], visited in the order
    [elements] gives them; the same order serves the statement text and the
    parameters, as both come from the one [updates] dictionary. *)
Definition update_product (product_id : Z) (req : request) : M outcome :=
  match req_json req with
  | None => ret (error_response "missing json body" 400)
  | Some data =>
      if negb (truthy data) then ret (error_response "missing json body" 400)
      else
        match data with
        | JObj m =>
            let updates := (λ k, (k, dict_get m k)) <$> elements (dom m ∩ allowed) in
            match updates with
            | [] => ret (error_response "no updatable fields provided" 400)
            | _ =>
                match coerce_params updates with
                | None => ret (error_response "price must be integer" 400)
                | Some vals =>
                    let params := vals ++ [JInt product_id] in
                    let final_query := update_sql (updates.*1) in
                    do r <- try (run_query Primary final_query params true);
                    match r with
                    | inr (Some (r :: _)) =>
                        ret (Response (jsonify [("product", product_dict r)]) 200)
                    | inr _ => ret (error_response "product not found" 404)
                    | inl e => ret (failure_response "failed to update" e)
                    end
                end
            end
        | _ => ret (Unhandled (no_attribute "keys"))
        end
  end.

(** [GET /health] *)
Definition health (req : request) : M outcome :=
  ret (Response (jsonify [("status", JStr "ok")]) 200).

(** ** The route table

    Each rule is bound to the view function exactly as the module registers
    it: no rule wraps its view in [admin_required]. *)

Inductive route : Type :=
  | GET_products
  | POST_admin_products
  | PATCH_admin_products (product_id : Z)
  | GET_health.

Definition view (rt : route) : request → M outcome :=
  match rt with
  | GET_products => get_products
  | POST_admin_products => create_product
  | PATCH_admin_products product_id => update_product product_id
  | GET_health => health
  end.

(** Serving one request: run the view, answer 500 on an uncaught
    exception. *)
Definition serve (rt : route) (req : request) (w : world) : outcome * world :=
  match view rt req w with
  | (inr o, w') => (o, w')
  | (inl e, w') => (Unhandled e, w')
  end.

(** Replication, outside the program: the replica catches up with what the
    primary has committed. *)
Definition replicate (w : world) : world :=
  mk_world (primary_pool w)
           (with_db (replica_pool w)
                    (with_rows (pool_db (replica_pool w))
                               (db_rows (pool_db (primary_pool w)))))
           (trace w).

(** ** Observations the statements below are phrased in *)

(** The driver calls a step appended to the trace. *)
Definition emitted (w w' : world) : list event :=
  drop (length (trace w)) (trace w').

Definition event_role (e : event) : role :=
  match e with
  | GetConn r _ | Execute r _ _ _ | Commit r _ | PutConn r _ => r
  end.

Definition acquired (evs : list event) : list (role * nat) :=
  omap (λ e, match e with GetConn r k => Some (r, k) | _ => None end) evs.

Definition released (evs : list event) : list (role * nat) :=
  omap (λ e, match e with PutConn r k => Some (r, k) | _ => None end) evs.

Definition committed (evs : list event) : list (role * nat) :=
  omap (λ e, match e with Commit r k => Some (r, k) | _ => None end) evs.

Definition statements (evs : list event) : list string :=
  omap (λ e, match e with Execute _ _ q _ => Some q | _ => None end) evs.

Definition is_read (q : string) : bool :=
  match parse_sql q with Some SSelect => true | _ => false end.

Definition is_write (q : string) : bool :=
  match parse_sql q with Some SInsert | Some (SUpdate _) => true | _ => false end.


(** The committed table behind a pool. *)
Definition rows_of (r : role) (w : world) : list product :=
  db_rows (pool_db (the_pool r w)).

(** The endpoint is reachable and the pool can hand out a connection. *)
Definition pool_ready (p : pool) : bool :=
  db_up (pool_db p) &&
  ((0 <? pool_idle p)%nat || negb (size (pool_used p) =? maxconn p)%nat).

Definition add_events (w : world) (evs : list event) : world :=
  mk_world (primary_pool w) (replica_pool w) (trace w ++ evs).

Definition is_raise {A} (r : exn + A) : bool :=
  match r with inl _ => true | inr _ => false end.

(** The response each mutating handler builds from what [run_query]
    gave back. *)
Definition create_outcome (r : exn + option (list product)) : outcome :=
  match r with
  | inr (Some (created :: _)) =>
      Response (jsonify [("product", product_dict created)]) 201
  | inr _ => error_response "insert failed" 500
  | inl e => failure_response "failed to insert" e
  end.

Definition update_outcome (r : exn + option (list product)) : outcome :=
  match r with
  | inr (Some (r :: _)) => Response (jsonify [("product", product_dict r)]) 200
  | inr _ => error_response "product not found" 404
  | inl e => failure_response "failed to update" e
  end.

Definition list_outcome (r : exn + option (list product)) : outcome :=
  match r with
  | inr rows => products_response rows
  | inl ex => failure_response "failed to query replica" ex
  end.

(** A request turned away before any database work: a 400, or an
    exception the view did not catch. *)
Definition rejected (o : outcome) : Prop :=
  status_of o = 400 ∨ ∃ e, o = Unhandled e.

(** What one [run_query] appends to the trace: calls on its pool, with its
    statement and parameters. *)
Definition call_of (r : role) (q : string) (ps : list json) (e : event) : Prop :=
  event_role e = r
  ∧ match e with Execute _ _ q' ps' => q' = q ∧ ps' = ps | _ => True end.

(** The columns an update request selects. *)
Definition update_fields (req : request) : gset string :=
  match req_json req with
  | Some (JObj m) => dom m ∩ allowed
  | _ => ∅
  end.

(** A statement reaches the pool meant for it. *)
Definition separated (e : event) : Prop :=
  match e with
  | Execute Primary _ q _ => is_write q = true
  | Execute Replica _ q _ => is_read q = true
  | _ => True
  end.






(** ** Sample states used by the closed examples *)

Definition sample_rows : list product :=
  [mk_product 2 "desk" 20 (Some "http://img/desk.png"); mk_product 1 "lamp" 10 None].

Definition sample_pool (rows : list product) : pool :=
  mk_pool (mk_database true rows 2) 1 10 1 ∅ 0.

Definition sample_world : world :=
  mk_world (sample_pool sample_rows) (sample_pool sample_rows) [].

Definition json_request (body : json) : request := mk_request ∅ ∅ (Some body).



(** A well-formed create request that carries no credential at all. *)
Definition lamp_request : request :=
  json_request (jsonify [("product_name", JStr "lamp"); ("price", JInt 12)]).



(** ** Pools across requests *)

#[global] Instance role_eq_dec : EqDecision role.
Proof. solve_decision. Defined.

(** Keys of checked-out connections never run ahead of the key counter. *)
Definition fresh_keys (p : pool) : Prop :=
  ∀ k, k ∈ dom (pool_used p) → (k ≤ pool_keys p)%nat.

(** A pool that keeps serving: its keys are fresh, it retains at least one
    idle connection, and it can hand one out now. *)
Definition pool_ok (p : pool) : Prop :=
  fresh_keys p ∧ (1 ≤ minconn p)%nat ∧ pool_ready p = true.

(** Requests served one after the other. *)
Fixpoint serve_all (reqs : list (route * request)) (w : world)
    : list outcome * world :=
  match reqs with
  | [] => ([], w)
  | (rt, req) :: rest =>
      let '(o, w1) := serve rt req w in
      let '(os, w2) := serve_all rest w1 in
      (o :: os, w2)
  end.




(** ** The desktop client ([app.py]) *)

Definition IMAGE_CACHE_DIR : string := "image_cache".

Definition CARD_WIDTH : Z := 220.

Definition CARD_HEIGHT : Z := 300.

Definition CARD_MARGIN : Z := 24.

Definition COLUMNS : Z := 4.

Fixpoint skip (n : nat) (s : string) : string :=
  match n, s with
  | S n', String _ s' => skip n' s'
  | _, _ => s
  end.

(** [s.replace(old, new)] for a non-empty [old]: occurrences are replaced
    from the left and do not overlap.  [fuel] bounds the number of steps. *)
Fixpoint replace_from (fuel : nat) (old new s : string) : string :=
  match fuel with
  | O => s
  | S fuel' =>
      if String.prefix old s then
        new +:+ replace_from fuel' old new (skip (String.length old) s)
      else
        match s with
        | String a s' => String a (replace_from fuel' old new s')
        | EmptyString => EmptyString
        end
  end.

Definition str_replace (old new s : string) : string :=
  replace_from (S (String.length s)) old new s.

(** [os.path.join(a, b)] with the POSIX separator. *)
Definition path_join (a b : string) : string :=
  if String.prefix "/" b then b
  else if String.eqb a "" || String.prefix "/" (String.rev a) then a +:+ b
  else a +:+ "/" +:+ b.

Definition cache_name (url : string) : string :=
  str_replace "&" "_" (str_replace "?" "_" (str_replace "/" "_" (str_replace "://" "_" url))).

Definition cache_path_for_url (url : string) : string :=
  path_join IMAGE_CACHE_DIR (cache_name url).

Fixpoint occurs (c : ascii) (s : string) : bool :=
  match s with
  | String a s' => Ascii.eqb a c || occurs c s'
  | EmptyString => false
  end.

(** *** The card grid *)

(** [pygame.Rect(x, y, w, h).collidepoint(pos)]: the right and bottom
    edges are outside. *)
Definition collidepoint (rect : Z * Z * Z * Z) (pos : Z * Z) : bool :=
  let '(x, y, w, h) := rect in
  (x <=? pos.1) && (pos.1 <? x + w) && (y <=? pos.2) && (pos.2 <? y + h).

(** The rectangle [draw] paints for the product at position [idx]. *)
Definition card_rect (idx scroll : Z) : Z * Z * Z * Z :=
  let col := idx `mod` COLUMNS in
  let row := idx / COLUMNS in
  let cx := CARD_MARGIN + col * (CARD_WIDTH + CARD_MARGIN) in
  let cy := 80 + row * (CARD_HEIGHT + CARD_MARGIN) - scroll in
  (cx, cy, CARD_WIDTH, CARD_HEIGHT).

(** [handle_click_on_grid]: the index of the product whose edit form
    opens, if any; [n] is [len(self.products)]. *)
Definition handle_click_on_grid (pos : Z * Z) (scroll n : Z) : option Z :=
  let start_x := CARD_MARGIN in
  let start_y := 80 in
  let x_rel := pos.1 - start_x in
  let y_rel := pos.2 - start_y + scroll in
  if (x_rel <? 0) || (y_rel <? 0) then None
  else
    let col := x_rel / (CARD_WIDTH + CARD_MARGIN) in
    let row := y_rel / (CARD_HEIGHT + CARD_MARGIN) in
    if col >=? COLUMNS then None
    else
      let idx := row * COLUMNS + col in
      if (idx <? 0) || (idx >=? n) then None
      else
        let cx := start_x + col * (CARD_WIDTH + CARD_MARGIN) in
        let cy := start_y + row * (CARD_HEIGHT + CARD_MARGIN) - scroll in
        if collidepoint (cx, cy, CARD_WIDTH, CARD_HEIGHT) pos then Some idx
        else None.

(** *** The admin form *)










(** * Properties *)

(** ** The pool and the executor *)

Lemma the_pool_set_pool r p w : the_pool r (set_pool r p w) = p.
Proof. by destruct r. Qed.

Lemma trace_set_pool r p w : trace (set_pool r p w) = trace w.
Proof. by destruct r. Qed.

Lemma emitted_app w w' evs : trace w' = trace w ++ evs → emitted w w' = evs.
Proof. intros H. unfold emitted. rewrite H. by rewrite drop_app_length. Qed.

Lemma pool_getconn_db p res p' :
  pool_getconn p = (res, p') → pool_db p' = pool_db p.
Proof.
  unfold pool_getconn. intros H.
  destruct (pool_idle p); [|by inversion H].
  repeat case_match; by inversion H.
Qed.

Lemma pool_getconn_used p key p' :
  pool_getconn p = (inr key, p') → pool_used p' = <[key := Idle]> (pool_used p).
Proof.
  unfold pool_getconn. intros H.
  destruct (pool_idle p); [|by inversion H].
  repeat case_match; by inversion H.
Qed.

Lemma pool_getconn_ready p :
  pool_ready p = true → ∃ key p', pool_getconn p = (inr key, p').
Proof.
  unfold pool_ready, pool_getconn. intros [Hup Hcap]%andb_prop.
  destruct (pool_idle p); [|eauto].
  simpl in Hcap. apply negb_true_iff in Hcap. rewrite Hcap, Hup. eauto.
Qed.

(** Everything one call of [run_query] does to the process. *)
Lemma run_query_spec r q ps fetch w res w' :
  run_query r q ps fetch w = (res, w') →
  ∃ p' evs,
    w' = set_pool r p' (add_events w evs)
    ∧ db_up (pool_db p') = db_up (pool_db (the_pool r w))
    ∧ (fetch = true ∨ is_raise res = true →
         db_rows (pool_db p') = db_rows (pool_db (the_pool r w)))
    ∧ ((is_raise res = true ∧ evs = []) ∨
       ∃ key, evs = [GetConn r key; Execute r key q ps]
                      ++ (if fetch || is_raise res then [] else [Commit r key])
                      ++ [PutConn r key]
              ∧ pool_used p' = delete key (pool_used (the_pool r w)))
    ∧ (∀ o, res = inr o →
         ∃ s rows work' seq',
           parse_sql q = Some s
           ∧ run_stmt s ps (db_rows (pool_db (the_pool r w)))
                      (db_seq (pool_db (the_pool r w))) = inr (rows, work', seq')
           ∧ o = if fetch then Some rows else None).
Proof.
  cbv [run_query bind getconn finally execute commit putconn on_pool log ret].
  destruct (pool_getconn (the_pool r w)) as [[e|key] p0] eqn:Hget; simpl.
  - pose proof (pool_getconn_db _ _ _ Hget) as Hdb.
    intros [= <- <-]. exists p0, []. unfold add_events. rewrite app_nil_r, Hdb.
    split_and!; [by destruct r, w | done | done | by left | done].
  - pose proof (pool_getconn_db _ _ _ Hget) as Hdb.
    pose proof (pool_getconn_used _ _ _ Hget) as Hused.
    unfold add_events.
    destruct r; simpl in *;
      unfold pool_execute; rewrite Hused, lookup_insert_eq, Hdb;
      (destruct (db_up (pool_db _)) eqn:Hup; simpl;
       [destruct (parse_sql q) as [s|] eqn:Hparse; simpl;
        [destruct (run_stmt s ps _ _) as [e|[[rows work'] seq']] eqn:Hrun; simpl;
         [|destruct fetch; simpl; unfold pool_commit; simpl;
           rewrite ?lookup_insert_eq; simpl] | ] | ]);
      unfold pool_putconn; simpl; rewrite lookup_insert_eq;
      intros [= <- <-]; eexists _, _;
      (split_and!;
       [ rewrite <- ?app_assoc; simpl; reflexivity
       | simpl; congruence
       | simpl; intros [|]; congruence
       | right; exists key; rewrite ?orb_true_r; simpl; split; [done|];
         by rewrite !delete_insert_eq
       | intros o [= <-]; eauto 10 ]).
Qed.




(** C3. Every call of [run_query] that obtains a connection hands it back to
    the pool it came from exactly once, as its last driver call, whether the
    call returns or raises; a call that raises commits nothing and leaves
    both committed tables as they were. *)
Theorem run_query_releases_once (r : role) (q : string) (ps : list json)
    (fetch : bool) (w : world) :
  let '(res, w') := run_query r q ps fetch w in
  let evs := emitted w w' in
  trace w' = trace w ++ evs
  ∧ released evs = acquired evs
  ∧ (acquired evs = [] ∧ evs = [] ∧ is_raise res = true
     ∨ ∃ key, acquired evs = [(r, key)]
              ∧ last evs = Some (PutConn r key)
              ∧ pool_used (the_pool r w') !! key = None)
  ∧ match res with
    | inl _ => committed evs = []
               ∧ rows_of Primary w' = rows_of Primary w
               ∧ rows_of Replica w' = rows_of Replica w
    | inr _ => True
    end.
Proof.
  destruct (run_query r q ps fetch w) as [res w'] eqn:Hrun.
  destruct (run_query_spec _ _ _ _ _ _ _ Hrun)
    as (p' & evs & -> & _ & Hrows & Hevs & _).
  assert (emitted w (set_pool r p' (add_events w evs)) = evs) as ->.
  { apply emitted_app. by rewrite trace_set_pool. }
  rewrite trace_set_pool. simpl. split; [done|].
  destruct Hevs as [[Hres ->]|(key & -> & Hused)].
  - split; [done|]. split; [by left|].
    destruct res; [|done]. split; [done|].
    unfold rows_of. destruct r; simpl in *; rewrite ?Hrows; auto.
  - split; [by destruct (fetch || is_raise res)|].
    split.
    + right. exists key. split_and!.
      * by destruct (fetch || is_raise res).
      * by destruct (fetch || is_raise res).
      * rewrite the_pool_set_pool, Hused. apply lookup_delete_eq.
    + destruct res; [|done]. simpl. rewrite orb_true_r. split; [done|].
      unfold rows_of. destruct r; simpl in *; rewrite ?Hrows; auto.
Qed.

(** ** Statement text and the engine's recogniser *)

Lemma parse_update_sql cs :
  cs ∈ column_seqs → parse_sql (update_sql cs) = Some (SUpdate cs).
Proof.
  unfold column_seqs. rewrite !elem_of_cons, elem_of_nil.
  intros H. repeat (destruct H as [->|H]; [vm_compute; reflexivity|]). done.
Qed.

Lemma subset_allowed (X : gset string) :
  X ⊆ allowed →
  X = (if decide ("product_name" ∈ X) then {[ "product_name" ]} else ∅)
      ∪ (if decide ("price" ∈ X) then {[ "price" ]} else ∅)
      ∪ (if decide ("product_image_url" ∈ X) then {[ "product_image_url" ]} else ∅).
Proof.
  intros HX. apply set_eq. intros x.
  rewrite !elem_of_union. split.
  - intros Hx. pose proof (HX x Hx) as Hin. unfold allowed in Hin.
    rewrite !elem_of_union, !elem_of_singleton in Hin.
    destruct Hin as [[->| ->]| ->]; [left; left | left; right | right];
      rewrite decide_True by done; by apply elem_of_singleton.
  - intros [[H|H]|H]; case_decide; try (by apply elem_of_empty in H);
      apply elem_of_singleton in H; by subst.
Qed.

Lemma subset_allowed_elements (X : gset string) :
  X ⊆ allowed → X = ∅ ∨ elements X ∈ column_seqs.
Proof.
  intros HX. rewrite (subset_allowed X HX).
  repeat case_decide;
    first [left; vm_compute; reflexivity | right; vm_compute; repeat constructor].
Qed.

(** ** The handlers, case by case *)

(** Closes the branch of a case analysis in which the handler answered 400
    and left the process as it was. *)
Ltac turned_away := left; eexists; split; [done | by left].

Lemma create_product_cases req w :
  (∃ o, create_product req w = (inr o, w) ∧ rejected o)
  ∨ ∃ m name pr res w',
      req_json req = Some (JObj m)
      ∧ m !! "product_name" = Some (JStr name) ∧ name ≠ ""
      ∧ py_int (dict_get m "price") = Some pr
      ∧ run_query Primary insert_sql
          [JStr name; JInt pr; dict_get m "product_image_url"] true w = (res, w')
      ∧ create_product req w = (inr (create_outcome res), w').
Proof.
  unfold create_product, rejected.
  destruct (req_json req) as [data|]; [|turned_away].
  destruct (truthy data) eqn:Htruthy; simpl;
    [|turned_away].
  destruct data as [|b|z|s|l|m]; try (left; eexists; split; [done|right; eauto]).
  destruct (negb (truthy (dict_get m "product_name"))
            || negb (isinstance_str (dict_get m "product_name"))) eqn:Hbad;
    [turned_away|].
  apply orb_false_elim in Hbad as [Htrue Hstr].
  apply negb_false_iff in Htrue, Hstr.
  destruct (dict_get m "product_name") as [|b|z|name|l|m0] eqn:Hget; try done.
  assert (m !! "product_name" = Some (JStr name)) as Hname.
  { unfold dict_get in Hget. destruct (m !! "product_name"); by simplify_eq/=. }
  simpl in Htrue. apply negb_true_iff in Htrue.
  destruct (py_int (dict_get m "price")) as [pr|] eqn:Hprice;
    [|turned_away].
  right.
  destruct (run_query Primary insert_sql
              [JStr name; JInt pr; dict_get m "product_image_url"] true w)
    as [res w'] eqn:Hrun.
  exists m, name, pr, res, w'. split_and!; try done.
  - by intros ->.
  - unfold bind, try. simpl. rewrite Hrun. unfold ret.
    by destruct res as [e|[[|created rows]|]].
Qed.

Lemma updates_columns (m : gmap string json) (cols : list string) :
  ((λ k, (k, dict_get m k)) <$> cols).*1 = cols.
Proof. rewrite <- list_fmap_compose. apply list_fmap_id. Qed.

Lemma update_product_cases id req w :
  (∃ o, update_product id req w = (inr o, w) ∧ rejected o)
  ∨ ∃ m cols vals res w',
      req_json req = Some (JObj m)
      ∧ cols = elements (dom m ∩ allowed) ∧ cols ≠ []
      ∧ coerce_params ((λ k, (k, dict_get m k)) <$> cols) = Some vals
      ∧ run_query Primary (update_sql cols) (vals ++ [JInt id]) true w = (res, w')
      ∧ update_product id req w = (inr (update_outcome res), w').
Proof.
  unfold update_product, rejected.
  destruct (req_json req) as [data|]; [|turned_away].
  destruct (truthy data) eqn:Htruthy; simpl;
    [|turned_away].
  destruct data as [|b|z|s|l|m]; try (left; eexists; split; [done|right; eauto]).
  rewrite updates_columns.
  destruct (elements (dom m ∩ allowed)) as [|c cols] eqn:Hcols;
    [turned_away|].
  destruct (coerce_params _) as [vals|] eqn:Hvals;
    [|turned_away].
  right.
  destruct (run_query Primary (update_sql (c :: cols)) (vals ++ [JInt id]) true w)
    as [res w'] eqn:Hrun.
  exists m, (c :: cols), vals, res, w'.
  split_and!; try done.
  rewrite fmap_cons. unfold bind, try. rewrite Hrun. unfold ret.
  by destruct res as [e|[[|created rows]|]].
Qed.

Lemma get_products_cases req w :
  match int_arg (req_args req !! "limit") 100,
        int_arg (req_args req !! "offset") 0 with
  | Some limit, Some offset =>
      let ps := [JInt limit; JInt offset] in
      ∃ res1 w1,
        run_query Replica select_sql ps true w = (res1, w1)
        ∧ if is_raise res1 then
            ∃ res2 w2,
              run_query Replica select_sql ps true w1 = (res2, w2)
              ∧ get_products req w = (inr (list_outcome res2), w2)
          else get_products req w = (inr (list_outcome res1), w1)
  | _, _ =>
      get_products req w =
        (inr (error_response "limit/offset must be integers" 400), w)
  end.
Proof.
  unfold get_products.
  destruct (int_arg (req_args req !! "limit") 100) as [limit|]; [|done].
  destruct (int_arg (req_args req !! "offset") 0) as [offset|]; [|done].
  simpl.
  destruct (run_query Replica select_sql [JInt limit; JInt offset] true w)
    as [res1 w1] eqn:Hrun1.
  exists res1, w1. split; [done|].
  destruct res1 as [e|rows]; simpl.
  - destruct (run_query Replica select_sql [JInt limit; JInt offset] true w1)
      as [res2 w2] eqn:Hrun2.
    exists res2, w2. split; [done|].
    unfold bind, try, as_string, ret. rewrite Hrun1, Hrun2. by destruct res2.
  - unfold bind, try, as_string, ret. by rewrite Hrun1.
Qed.

Lemma serve_view rt req w o w' :
  view rt req w = (inr o, w') → serve rt req w = (o, w').
Proof. unfold serve. by intros ->. Qed.

Lemma run_query_calls r q ps fetch w res w' :
  run_query r q ps fetch w = (res, w') →
  ∃ evs, trace w' = trace w ++ evs ∧ Forall (call_of r q ps) evs
         ∧ (fetch = true → rows_of Primary w' = rows_of Primary w
                           ∧ rows_of Replica w' = rows_of Replica w
                           ∧ committed evs = []).
Proof.
  intros Hrun.
  destruct (run_query_spec _ _ _ _ _ _ _ Hrun)
    as (p' & evs & -> & _ & Hrows & Hevs & _).
  exists evs. rewrite trace_set_pool. split; [done|]. split.
  - destruct Hevs as [[_ ->]|(key & -> & _)]; [constructor|].
    repeat first [apply Forall_cons; split | apply Forall_app; split];
      try (destruct (fetch || is_raise res)); repeat constructor.
  - intros ->. unfold rows_of.
    split_and!; [destruct r; simpl; rewrite ?Hrows; auto..|].
    by destruct Hevs as [[_ ->]|(key & -> & _)].
Qed.

Lemma coerce_params_length updates vals :
  coerce_params updates = Some vals → length vals = length updates.
Proof. intros H. symmetry. by eapply length_mapM. Qed.

Lemma serve_calls rt req w :
  ∃ evs,
    trace (serve rt req w).2 = trace w ++ evs
    ∧ rows_of Primary (serve rt req w).2 = rows_of Primary w
    ∧ rows_of Replica (serve rt req w).2 = rows_of Replica w
    ∧ committed evs = []
    ∧ match rt with
      | GET_products =>
          ∃ ps, length ps = 2%nat ∧ Forall (call_of Replica select_sql ps) evs
      | POST_admin_products =>
          ∃ ps, length ps = 3%nat ∧ Forall (call_of Primary insert_sql ps) evs
      | PATCH_admin_products id =>
          evs = []
          ∨ ∃ ps, elements (update_fields req) ≠ []
                  ∧ length ps = S (length (elements (update_fields req)))
                  ∧ Forall (call_of Primary
                              (update_sql (elements (update_fields req))) ps) evs
      | GET_health => evs = []
      end.
Proof.
  destruct rt as [| |id|].
  - pose proof (get_products_cases req w) as Hcases.
    destruct (int_arg (req_args req !! "limit") 100) as [limit|];
      [destruct (int_arg (req_args req !! "offset") 0) as [offset|]|].
    2,3: rewrite (serve_view GET_products _ _ _ _ Hcases); exists []; simpl;
         rewrite app_nil_r; split_and!; try done; by exists [JNull; JNull].
    destruct Hcases as (res1 & w1 & Hrun1 & Hrest).
    destruct (run_query_calls _ _ _ _ _ _ _ Hrun1) as (evs1 & Ht1 & Hc1 & Hr1).
    destruct (Hr1 eq_refl) as (Hp1 & Hq1 & Hn1).
    destruct (is_raise res1).
    + destruct Hrest as (res2 & w2 & Hrun2 & Hview).
      destruct (run_query_calls _ _ _ _ _ _ _ Hrun2) as (evs2 & Ht2 & Hc2 & Hr2).
      destruct (Hr2 eq_refl) as (Hp2 & Hq2 & Hn2).
      rewrite (serve_view GET_products _ _ _ _ Hview). simpl. exists (evs1 ++ evs2).
      rewrite Ht2, Ht1, app_assoc. split_and!; try congruence.
      { unfold committed in *. by rewrite omap_app, Hn1, Hn2. }
      exists [JInt limit; JInt offset]. split; [done|]. by apply Forall_app.
    + rewrite (serve_view GET_products _ _ _ _ Hrest). simpl. exists evs1.
      split_and!; try done. by exists [JInt limit; JInt offset].
  - destruct (create_product_cases req w)
      as [(o & Hview & _)|(m & name & pr & res & w' & _ & _ & _ & _ & Hrun & Hview)];
      rewrite (serve_view POST_admin_products _ _ _ _ Hview); simpl.
    + exists []. rewrite app_nil_r. split_and!; try done. by exists [JNull; JNull; JNull].
    + destruct (run_query_calls _ _ _ _ _ _ _ Hrun) as (evs & Ht & Hc & Hr).
      destruct (Hr eq_refl) as (? & ? & ?). exists evs. split_and!; try done.
      by exists [JStr name; JInt pr; dict_get m "product_image_url"].
  - destruct (update_product_cases id req w)
      as [(o & Hview & _)|(m & cols & vals & res & w' & Hjson & -> & Hne & Hvals & Hrun & Hview)];
      rewrite (serve_view (PATCH_admin_products id) _ _ _ _ Hview); simpl.
    + exists []. rewrite app_nil_r. split_and!; try done. by left.
    + destruct (run_query_calls _ _ _ _ _ _ _ Hrun) as (evs & Ht & Hc & Hr).
      destruct (Hr eq_refl) as (? & ? & ?). exists evs. split_and!; try done.
      right. unfold update_fields. rewrite Hjson.
      exists (vals ++ [JInt id]). split_and!; [done| |done].
      rewrite length_app, (coerce_params_length _ _ Hvals), length_fmap. simpl. lia.
  - exists []. simpl. by rewrite app_nil_r.
Qed.

Lemma update_fields_subset req : update_fields req ⊆ allowed.
Proof.
  unfold update_fields. destruct (req_json req) as [[| | | | |m]|];
    try apply empty_subseteq. apply intersection_subseteq_r.
Qed.

Lemma update_fields_seq req :
  elements (update_fields req) ≠ [] →
  elements (update_fields req) ∈ column_seqs.
Proof.
  intros Hne.
  destruct (subset_allowed_elements _ (update_fields_subset req)) as [Hempty|Hin];
    [|done].
  rewrite Hempty, elements_empty in Hne. done.
Qed.

(** ** Routing *)

(** C1. Whatever the request, the list route talks only to the replica pool
    and the create and update routes only to the primary pool; every
    statement run on the primary is an insert or an update and every
    statement run on the replica is the select. *)
Theorem reads_on_replica_writes_on_primary (rt : route) (req : request) (w : world) :
  let evs := emitted w (serve rt req w).2 in
  match rt with
  | GET_products => Forall (λ e, event_role e = Replica) evs
  | POST_admin_products | PATCH_admin_products _ =>
      Forall (λ e, event_role e = Primary) evs
  | GET_health => evs = []
  end
  ∧ Forall separated evs.
Proof.
  destruct (serve_calls rt req w) as (evs & Ht & _ & _ & _ & Hcalls).
  rewrite (emitted_app _ _ _ Ht). simpl.
  destruct rt as [| |id|].
  - destruct Hcalls as (ps & _ & Hc).
    split; (eapply Forall_impl; [exact Hc|]); intros e [Hrole Hq]; [done|].
    destruct e as [|r k q' ps'| |]; try done. simpl in Hrole. subst r.
    destruct Hq as [-> _]. by vm_compute.
  - destruct Hcalls as (ps & _ & Hc).
    split; (eapply Forall_impl; [exact Hc|]); intros e [Hrole Hq]; [done|].
    destruct e as [|r k q' ps'| |]; try done. simpl in Hrole. subst r.
    destruct Hq as [-> _]. by vm_compute.
  - destruct Hcalls as [->|(ps & Hne & _ & Hc)]; [by split|].
    split; (eapply Forall_impl; [exact Hc|]); intros e [Hrole Hq]; [done|].
    destruct e as [|r k q' ps'| |]; try done. simpl in Hrole. subst r.
    destruct Hq as [-> _]. simpl. unfold is_write.
    by rewrite (parse_update_sql _ (update_fields_seq _ Hne)).
  - subst evs. by split.
Qed.

(** ** The list route *)











(** ** Statement text *)





(** ** Validation before any database work *)

(** C6. A PATCH whose JSON object has no key in the allow-list is answered
    with 400 and leaves the whole process state, and so every row, as it
    was: no connection is taken and no statement runs. *)
Theorem update_unknown_keys_rejected (id : Z) (req : request)
    (m : gmap string json) (w : world) :
  req_json req = Some (JObj m) →
  dom m ∩ allowed = ∅ →
  status_of (serve (PATCH_admin_products id) req w).1 = 400
  ∧ (serve (PATCH_admin_products id) req w).2 = w.
Proof.
  intros Hjson Hnone.
  unfold serve, view, update_product. rewrite Hjson, Hnone, elements_empty.
  by destruct (truthy (JObj m)).
Qed.

Lemma update_unknown_keys_rejected_witness :
  status_of (serve (PATCH_admin_products 1)
               (json_request (jsonify [("colour", JStr "red")])) sample_world).1 = 400
  ∧ (serve (PATCH_admin_products 1)
       (json_request (jsonify [("colour", JStr "red")])) sample_world).2 = sample_world.
Proof.
  apply (update_unknown_keys_rejected 1 _ (list_to_map [("colour", JStr "red")]));
    [reflexivity | vm_compute; reflexivity].
Defined.




(** ** Updating an identifier that is not in the table *)










(** ** What the mutating handlers answer

    Inside the transaction the statements do what the handlers mean them to
    do: an acceptable update answers with the patched row, a valid create
    with a row under the next identifier. *)










(** ** The authorization gate

    The decorator itself does what its comment says. *)

Lemma admin_required_rejects ADMIN_TOKEN f req w :
  request_token req ≠ Some ADMIN_TOKEN →
  admin_required ADMIN_TOKEN f req w = (inr unauthorized, w).
Proof.
  intros Hne. unfold admin_required.
  by rewrite (bool_decide_eq_false_2 _ Hne), orb_true_r.
Qed.

Lemma admin_required_rejects_empty ADMIN_TOKEN f req w :
  nonempty (request_token req) = false →
  admin_required ADMIN_TOKEN f req w = (inr unauthorized, w).
Proof. intros Hempty. unfold admin_required. by rewrite Hempty. Qed.


(** C2 (the code departs from it). No rule of the route table is wrapped in
    [admin_required]: a create request without any header would be refused
    by the gate, yet as served it is answered 201 after running the insert
    on the primary, and a credential-free update is answered 200. *)
Theorem create_without_token_is_served :
  req_headers lamp_request = ∅
  ∧ admin_required "token" create_product lamp_request sample_world
    = (inr unauthorized, sample_world)
  ∧ status_of (serve POST_admin_products lamp_request sample_world).1 = 201
  ∧ emitted sample_world (serve POST_admin_products lamp_request sample_world).2
    = [GetConn Primary 1;
       Execute Primary 1 insert_sql [JStr "lamp"; JInt 12; JNull];
       PutConn Primary 1]
  ∧ status_of (serve (PATCH_admin_products 1)
                 (json_request (jsonify [("price", JInt 99)])) sample_world).1 = 200.
Proof. vm_compute. repeat split. Qed.

(** ** Writes are never committed

    Every call of [run_query] in the handlers asks for rows, so the executor
    returns before its [commit]: whatever the request, no commit is issued
    and the committed tables stay as they were. *)


(** C4 (the code departs from it). A valid create is answered 201 with a
    fresh positive id, but the insert is rolled back when the connection
    goes back to the pool: the primary's table is unchanged and, even once
    the replica has caught up, the list route does not show the row. *)
Theorem created_product_is_not_persisted :
  let '(o, w1) := serve POST_admin_products lamp_request sample_world in
  o = Response (jsonify [("product", product_dict (mk_product 3 "lamp" 12 None))]) 201
  ∧ rows_of Primary w1 = sample_rows
  ∧ (serve GET_products (mk_request ∅ ∅ None) (replicate w1)).1
    = Response (jsonify [("products",
                          JArr (product_dict <$>
                                  [mk_product 1 "lamp" 10 None;
                                   mk_product 2 "desk" 20 (Some "http://img/desk.png")]))])
               200.
Proof. vm_compute. repeat split. Qed.

(** C5 (the code departs from it). An update of an existing product is
    answered 200 with the post-update row, but the update is rolled back
    when the connection goes back to the pool: the stored row keeps its old
    price and the list route still shows it. *)
Theorem updated_fields_are_not_persisted :
  let '(o, w1) := serve (PATCH_admin_products 1)
                    (json_request (jsonify [("price", JInt 99)])) sample_world in
  o = Response (jsonify [("product", product_dict (mk_product 1 "lamp" 99 None))]) 200
  ∧ rows_of Primary w1 = sample_rows
  ∧ (serve GET_products (mk_request ∅ ∅ None) (replicate w1)).1
    = Response (jsonify [("products",
                          JArr (product_dict <$>
                                  [mk_product 1 "lamp" 10 None;
                                   mk_product 2 "desk" 20 (Some "http://img/desk.png")]))])
               200.
Proof. vm_compute. repeat split. Qed.

(** ** Worked examples *)

Example int_of_str_plain : int_of_str "42" = Some 42.
Proof. reflexivity. Qed.

Example int_of_str_signed_padded : int_of_str "  -1_000 " = Some (-1000).
Proof. reflexivity. Qed.

Example int_of_str_rejects :
  int_of_str <$> ["abc"; ""; "1__0"; "10_"; "1 0"; "- 1"; "_1"]
  = [None; None; None; None; None; None; None].
Proof. reflexivity. Qed.

Example strip_bearer :
  request_token (mk_request ∅ {[ "Authorization" := "Bearer  secret " ]} None)
  = Some "secret".
Proof. by vm_compute. Qed.

(** A statement the engine rejects: the call raises, the connection still
    goes back, nothing is committed. *)
Example run_query_failure_path :
  let '(res, w') := run_query Primary "SELEC 1" [] false sample_world in
  is_raise res = true
  ∧ trace w' = [GetConn Primary 1; Execute Primary 1 "SELEC 1" []; PutConn Primary 1]
  ∧ pool_used (primary_pool w') = ∅
  ∧ rows_of Primary w' = sample_rows.
Proof. vm_compute. repeat split. Qed.

(** A negative limit parses, so it is not a 400: both attempts reach the
    replica, the engine refuses them, and the answer is 500. *)
Example negative_limit_is_a_store_failure :
  let '(o, w') := serve GET_products
                    (mk_request {[ "limit" := "-1" ]} ∅ None) sample_world in
  status_of o = 500
  ∧ statements (trace w') = [select_sql; select_sql].
Proof. vm_compute. repeat split. Qed.

(** The second page of two rows each, in ascending id order. *)
Example second_page :
  (serve GET_products
     (mk_request {[ "limit" := "1"; "offset" := "1" ]} ∅ None) sample_world).1
  = Response (jsonify
      [("products",
        JArr [product_dict (mk_product 2 "desk" 20 (Some "http://img/desk.png"))])])
      200.
Proof. vm_compute. reflexivity. Qed.

(** * Further properties *)

(** What one [run_query] leaves of its pool. *)
Lemma run_query_pool r q ps fetch w res w' :
  run_query r q ps fetch w = (res, w') →
  let p := the_pool r w in
  let p' := the_pool r w' in
  minconn p' = minconn p
  ∧ maxconn p' = maxconn p
  ∧ pool_keys p' = S (pool_keys p)
  ∧ db_up (pool_db p') = db_up (pool_db p)
  ∧ (pool_used p' = pool_used p
     ∨ pool_used p' = delete (S (pool_keys p)) (pool_used p))
  ∧ (pool_ready p = true → (1 ≤ minconn p)%nat → (1 ≤ pool_idle p')%nat).
Proof.
  cbv [run_query bind getconn finally execute commit putconn on_pool log ret].
  unfold pool_getconn.
  destruct (pool_idle (the_pool r w)) as [|idle] eqn:Hidle.
  - destruct (size (pool_used (the_pool r w)) =? maxconn (the_pool r w))%nat eqn:Hcap.
    { intros [= <- <-]. rewrite the_pool_set_pool. simpl.
      split_and!; try done; [by left|].
      unfold pool_ready. rewrite Hidle, Hcap. simpl. by rewrite andb_false_r. }
    destruct (db_up (pool_db (the_pool r w))) eqn:Hup.
    2:{ intros [= <- <-]. rewrite the_pool_set_pool. simpl.
        split_and!; try done; [by left|].
        unfold pool_ready. by rewrite Hup. }
    destruct r; simpl in *;
      unfold pool_execute; simpl; rewrite lookup_insert_eq, Hup; simpl;
      (destruct (parse_sql q) as [s|]; simpl;
       [destruct (run_stmt s ps _ _) as [e|[[rows work'] seq']]; simpl;
        [|destruct fetch; simpl; unfold pool_commit; simpl;
          rewrite ?lookup_insert_eq; simpl] | ]);
      unfold pool_putconn; simpl; rewrite lookup_insert_eq;
      intros [= <- <-]; simpl;
      (split_and!; try done;
       [right; by rewrite !delete_insert_eq
       |intros _ Hmin; rewrite (proj2 (Nat.ltb_lt 0 _)) by lia; lia]).
  - destruct r; simpl in *;
      unfold pool_execute; simpl; rewrite lookup_insert_eq;
      (destruct (db_up (pool_db _)) eqn:Hup; simpl;
       [destruct (parse_sql q) as [s|]; simpl;
        [destruct (run_stmt s ps _ _) as [e|[[rows work'] seq']]; simpl;
         [|destruct fetch; simpl; unfold pool_commit; simpl;
           rewrite ?lookup_insert_eq; simpl] | ] | ]);
      unfold pool_putconn; simpl; rewrite lookup_insert_eq;
      intros [= <- <-]; simpl;
      (split_and!; try done;
       [right; by rewrite !delete_insert_eq
       |intros _ Hmin; destruct (idle <? minconn _)%nat eqn:Hlt;
        [lia | apply Nat.ltb_ge in Hlt; lia]]).
Qed.

Lemma run_query_frame r r' q ps fetch w res w' :
  run_query r q ps fetch w = (res, w') → r' ≠ r → the_pool r' w' = the_pool r' w.
Proof.
  intros Hrun Hne.
  destruct (run_query_spec _ _ _ _ _ _ _ Hrun) as (p' & evs & -> & _).
  by destruct r, r'.
Qed.

Lemma run_query_keeps_pool r r' q ps fetch w res w' :
  run_query r q ps fetch w = (res, w') →
  pool_ok (the_pool r' w) →
  pool_ok (the_pool r' w')
  ∧ pool_used (the_pool r' w') = pool_used (the_pool r' w).
Proof.
  intros Hrun Hok.
  destruct (decide (r' = r)) as [->|Hne];
    [|by rewrite (run_query_frame _ _ _ _ _ _ _ _ Hrun Hne)].
  destruct Hok as (Hfresh & Hmin & Hready).
  destruct (run_query_pool _ _ _ _ _ _ _ Hrun)
    as (Hmin' & Hmax' & Hkeys' & Hup' & Hused' & Hidle').
  assert (pool_used (the_pool r w') = pool_used (the_pool r w)) as Hsame.
  { destruct Hused' as [->| ->]; [done|]. apply delete_id, not_elem_of_dom.
    intros Hin%Hfresh. lia. }
  split; [|done]. split_and!.
  - intros k. rewrite Hsame, Hkeys'. intros Hin%Hfresh. lia.
  - by rewrite Hmin'.
  - specialize (Hidle' Hready Hmin). unfold pool_ready in *.
    apply andb_prop in Hready as [Hup _]. rewrite Hup', Hup. simpl.
    apply orb_true_iff. left. apply Nat.ltb_lt. lia.
Qed.

(** A property of the process that every call of [run_query] keeps is kept
    by every request. *)
Lemma serve_preserves (P : world → Prop) :
  (∀ r q ps fetch w res w', P w → run_query r q ps fetch w = (res, w') → P w') →
  ∀ rt req w, P w → P (serve rt req w).2.
Proof.
  intros Hstep rt req w HP. destruct rt as [| |id|].
  - pose proof (get_products_cases req w) as Hcases.
    destruct (int_arg (req_args req !! "limit") 100) as [limit|];
      [destruct (int_arg (req_args req !! "offset") 0) as [offset|]|].
    2,3: by rewrite (serve_view GET_products _ _ _ _ Hcases).
    destruct Hcases as (res1 & w1 & Hrun1 & Hrest).
    pose proof (Hstep _ _ _ _ _ _ _ HP Hrun1) as HP1.
    destruct (is_raise res1).
    + destruct Hrest as (res2 & w2 & Hrun2 & Hview).
      rewrite (serve_view GET_products _ _ _ _ Hview). simpl. eauto.
    + by rewrite (serve_view GET_products _ _ _ _ Hrest).
  - destruct (create_product_cases req w)
      as [(o & Hview & _)|(m & name & pr & res & w' & _ & _ & _ & _ & Hrun & Hview)];
      rewrite (serve_view POST_admin_products _ _ _ _ Hview); simpl; eauto.
  - destruct (update_product_cases id req w)
      as [(o & Hview & _)|(m & cols & vals & res & w' & _ & _ & _ & _ & Hrun & Hview)];
      rewrite (serve_view (PATCH_admin_products id) _ _ _ _ Hview); simpl; eauto.
  - done.
Qed.

(** X5. Starting from pools with fresh keys, [minconn] at least 1 and a
    reachable endpoint, any sequence of requests leaves both pools in that
    condition, with exactly the connections checked out that were checked
    out before: the handlers leak no connection and never exhaust a pool. *)
Theorem pools_survive_any_request_sequence
    (reqs : list (route * request)) (w : world) :
  pool_ok (primary_pool w) → pool_ok (replica_pool w) →
  let w' := (serve_all reqs w).2 in
  pool_ok (primary_pool w') ∧ pool_ok (replica_pool w')
  ∧ pool_used (primary_pool w') = pool_used (primary_pool w)
  ∧ pool_used (replica_pool w') = pool_used (replica_pool w).
Proof.
  revert w. induction reqs as [|[rt req] reqs IH]; intros w Hp Hr; [done|].
  simpl.
  assert (pool_ok (primary_pool (serve rt req w).2)
          ∧ pool_ok (replica_pool (serve rt req w).2)
          ∧ pool_used (primary_pool (serve rt req w).2) = pool_used (primary_pool w)
          ∧ pool_used (replica_pool (serve rt req w).2) = pool_used (replica_pool w))
    as (Hp1 & Hr1 & Hup1 & Hur1).
  { apply (serve_preserves
             (λ w1, pool_ok (primary_pool w1) ∧ pool_ok (replica_pool w1)
                    ∧ pool_used (primary_pool w1) = pool_used (primary_pool w)
                    ∧ pool_used (replica_pool w1) = pool_used (replica_pool w)));
      [|done].
    intros r q ps fetch w0 res w1 (Hp0 & Hr0 & Hup0 & Hur0) Hrun.
    destruct (run_query_keeps_pool r Primary _ _ _ _ _ _ Hrun Hp0) as [? Hu1].
    destruct (run_query_keeps_pool r Replica _ _ _ _ _ _ Hrun Hr0) as [? Hu2].
    simpl in *. split_and!; try done; congruence. }
  destruct (serve rt req w) as [o w1]. simpl in *.
  specialize (IH w1 Hp1 Hr1).
  destruct (serve_all reqs w1) as [os w2]. simpl in *.
  destruct IH as (? & ? & ? & ?). split_and!; try done; congruence.
Qed.

(** X6. Whatever requests are served, in whatever order, no commit is
    issued and the committed tables of both endpoints stay as they were:
    every handler calls [run_query] with [fetch=True]. *)
Theorem no_request_sequence_changes_the_tables
    (reqs : list (route * request)) (w : world) :
  let w' := (serve_all reqs w).2 in
  rows_of Primary w' = rows_of Primary w
  ∧ rows_of Replica w' = rows_of Replica w
  ∧ ∃ evs, trace w' = trace w ++ evs ∧ committed evs = [].
Proof.
  revert w. induction reqs as [|[rt req] reqs IH]; intros w.
  { simpl. split_and!; try done. exists []. by rewrite app_nil_r. }
  simpl.
  destruct (serve_calls rt req w) as (evs & Ht & Hp & Hr & Hn & _).
  destruct (serve rt req w) as [o w1]. simpl in *.
  specialize (IH w1).
  destruct (serve_all reqs w1) as [os w2]. simpl in *.
  destruct IH as (Hp2 & Hr2 & evs2 & Ht2 & Hn2).
  split_and!; try congruence.
  exists (evs ++ evs2). rewrite Ht2, Ht, app_assoc. split; [done|].
  unfold committed in *. by rewrite omap_app, Hn, Hn2.
Qed.

(** X4. Called with [fetch=False] on a pool that can serve, with a statement
    the engine accepts, [run_query] returns [None], commits, and the
    statement's effect is the table afterwards; the driver calls are
    getconn, execute, commit, putconn in that order. *)
Theorem run_query_commits_without_fetch r q ps w s rows work' seq' :
  pool_ready (the_pool r w) = true →
  parse_sql q = Some s →
  run_stmt s ps (rows_of r w) (db_seq (pool_db (the_pool r w))) = inr (rows, work', seq') →
  ∃ w' key,
    run_query r q ps false w = (inr None, w')
    ∧ rows_of r w' = work'
    ∧ db_seq (pool_db (the_pool r w')) = seq'
    ∧ emitted w w' = [GetConn r key; Execute r key q ps; Commit r key; PutConn r key].
Proof.
  intros Hready Hparse Hrun.
  destruct (pool_getconn_ready _ Hready) as (key & p0 & Hget).
  pose proof (pool_getconn_db _ _ _ Hget) as Hdb.
  pose proof (pool_getconn_used _ _ _ Hget) as Hused.
  apply andb_prop in Hready as [Hup _]. unfold rows_of in *.
  cbv [run_query bind getconn finally execute commit putconn on_pool log ret].
  rewrite Hget.
  destruct r; simpl in *;
    unfold pool_execute; rewrite Hused, lookup_insert_eq, Hdb, Hup; simpl;
    rewrite Hparse, Hrun; simpl;
    unfold pool_commit; simpl; rewrite lookup_insert_eq; simpl;
    unfold pool_putconn; simpl; rewrite lookup_insert_eq;
    eexists _, key; (split; [reflexivity|]); simpl;
    (split_and!; try done);
    apply emitted_app; simpl; by rewrite <- !app_assoc.
Qed.

Lemma run_query_commits_without_fetch_witness :
  ∃ w' key,
    run_query Primary insert_sql [JStr "lamp"; JInt 12; JNull] false sample_world
    = (inr None, w')
    ∧ rows_of Primary w' = sample_rows ++ [mk_product 3 "lamp" 12 None]
    ∧ db_seq (pool_db (the_pool Primary w')) = 3
    ∧ emitted sample_world w'
      = [GetConn Primary key;
         Execute Primary key insert_sql [JStr "lamp"; JInt 12; JNull];
         Commit Primary key; PutConn Primary key].
Proof.
  apply (run_query_commits_without_fetch Primary insert_sql
           [JStr "lamp"; JInt 12; JNull] sample_world SInsert
           [mk_product 3 "lamp" 12 None]);
    vm_compute; reflexivity.
Defined.



(** X8. A body that parses to a truthy JSON value other than an object (a
    non-empty array or string, a non-zero number, [true]) makes both
    mutating handlers raise [AttributeError] before any validation: the
    request ends in a 500 and nothing else happens. *)
Theorem non_object_body_is_unhandled (req : request) (j : json) (w : world) :
  req_json req = Some j →
  truthy j = true →
  (∀ m, j ≠ JObj m) →
  serve POST_admin_products req w = (Unhandled (no_attribute "get"), w)
  ∧ ∀ id, serve (PATCH_admin_products id) req w = (Unhandled (no_attribute "keys"), w).
Proof.
  intros Hjson Htrue Hobj. unfold serve, view, create_product, update_product.
  rewrite Hjson, Htrue. simpl.
  destruct j as [|b|z|s|l|m]; try done. by destruct (Hobj m).
Qed.

Lemma non_object_body_is_unhandled_witness :
  serve POST_admin_products (json_request (JArr [JInt 1])) sample_world
  = (Unhandled (no_attribute "get"), sample_world)
  ∧ ∀ id, serve (PATCH_admin_products id) (json_request (JArr [JInt 1])) sample_world
          = (Unhandled (no_attribute "keys"), sample_world).
Proof.
  apply (non_object_body_is_unhandled _ (JArr [JInt 1]));
    [reflexivity | reflexivity | discriminate].
Defined.













Lemma pools_survive_any_request_sequence_witness :
  let w' := (serve_all [(POST_admin_products, lamp_request);
                        (GET_products, mk_request ∅ ∅ None);
                        (PATCH_admin_products 1, json_request (jsonify [("price", JInt 5)]))]
               sample_world).2 in
  pool_ok (primary_pool w') ∧ pool_ok (replica_pool w')
  ∧ pool_used (primary_pool w') = pool_used (primary_pool sample_world)
  ∧ pool_used (replica_pool w') = pool_used (replica_pool sample_world).
Proof.
  apply (pools_survive_any_request_sequence _ sample_world).
  all: split_and!; [|simpl; lia|reflexivity].
  all: intros k Hk; simpl in Hk; by rewrite dom_empty_L in Hk.
Defined.



(** X2. A non-empty [X-Admin-Token] that is wrong is decisive: the request
    is rejected whatever the [Authorization] header says. *)
Theorem header_token_takes_precedence (ADMIN_TOKEN x : string)
    (f : request → M outcome) (req : request) (w : world) :
  req_headers req !! "X-Admin-Token" = Some x →
  x ≠ "" → x ≠ ADMIN_TOKEN →
  admin_required ADMIN_TOKEN f req w = (inr unauthorized, w).
Proof.
  intros Hx Hne Hwrong. apply admin_required_rejects.
  unfold request_token. rewrite Hx. simpl.
  rewrite (proj2 (String.eqb_neq _ _) Hne). simpl. by intros [= ->].
Qed.

Lemma header_token_takes_precedence_witness :
  admin_required "token" create_product
    (mk_request ∅ {[ "X-Admin-Token" := "guess"; "Authorization" := "Bearer token" ]}
                (req_json lamp_request))
    sample_world
  = (inr unauthorized, sample_world).
Proof.
  apply (header_token_takes_precedence "token" "guess");
    [vm_compute; reflexivity | discriminate | discriminate].
Defined.





Lemma div_in_cell x c step width :
  0 < width ≤ step → c * step ≤ x < c * step + width → x / step = c.
Proof.
  intros Hw Hx. symmetry. apply (Z.div_unique x step c (x - step * c)); lia.
Qed.

(** X14. A click opens the edit form of product [idx] exactly when [idx]
    is a position in the product list and the click lies inside the
    rectangle [draw] paints for that position, whatever the scroll offset;
    clicks in the gaps between cards open nothing. *)
Theorem click_opens_the_card_under_it (pos : Z * Z) (scroll n idx : Z) :
  handle_click_on_grid pos scroll n = Some idx
  ↔ 0 ≤ idx < n ∧ collidepoint (card_rect idx scroll) pos = true.
Proof.
  unfold handle_click_on_grid, card_rect, collidepoint,
    CARD_WIDTH, CARD_HEIGHT, CARD_MARGIN, COLUMNS.
  destruct pos as [px py]. simpl.
  change (220 + 24) with 244. change (300 + 24) with 324. split.
  - destruct (_ || _) eqn:Hneg; [done|].
    apply orb_false_elim in Hneg as [Hx Hy].
    apply Z.ltb_ge in Hx, Hy.
    destruct (_ >=? 4) eqn:Hcol; [done|].
    rewrite Z.geb_leb in Hcol. apply Z.leb_gt in Hcol.
    destruct (_ || _) eqn:Hidx; [done|].
    apply orb_false_elim in Hidx as [Hlo Hhi].
    apply Z.ltb_ge in Hlo. rewrite Z.geb_leb in Hhi. apply Z.leb_gt in Hhi.
    destruct (_ && _) eqn:Hhit; [|done].
    intros [= <-].
    assert (0 ≤ (px - 24) / 244 < 4) as Hc.
    { split; [apply Z.div_pos; lia|]. lia. }
    assert (((py - 80 + scroll) / 324 * 4 + (px - 24) / 244) `mod` 4 = (px - 24) / 244) as ->.
    { rewrite Z.add_comm, Z_mod_plus_full. apply Z.mod_small. lia. }
    assert (((py - 80 + scroll) / 324 * 4 + (px - 24) / 244) / 4 = (py - 80 + scroll) / 324) as ->.
    { rewrite Z.add_comm, Z_div_plus_full by lia. rewrite Z.div_small by lia. lia. }
    split; [lia|done].
  - intros [Hidx Hhit].
    pose proof (Z.mod_pos_bound idx 4 ltac:(lia)) as Hmod.
    pose proof (Z.div_mod idx 4 ltac:(lia)) as Hdm.
    assert (0 ≤ idx / 4) as Hrow by (apply Z.div_pos; lia).
    apply andb_prop in Hhit as [[[H1 H2]%andb_prop H3]%andb_prop H4].
    apply Z.leb_le in H1, H3. apply Z.ltb_lt in H2, H4.
    assert ((px - 24) / 244 = idx `mod` 4) as Hc
      by (apply (div_in_cell _ _ 244 220); lia).
    assert ((py - 80 + scroll) / 324 = idx / 4) as Hr
      by (apply (div_in_cell _ _ 324 300); lia).
    rewrite Hc, Hr.
    rewrite (proj2 (Z.ltb_ge _ _)), (proj2 (Z.ltb_ge _ _)) by lia. simpl.
    rewrite !Z.geb_leb.
    rewrite (proj2 (Z.leb_gt 4 _)) by lia.
    assert (idx / 4 * 4 + idx `mod` 4 = idx) as -> by lia.
    rewrite (proj2 (Z.ltb_ge _ _)) by lia.
    rewrite (proj2 (Z.leb_gt n _)) by lia. simpl.
    rewrite (proj2 (Z.leb_le _ _)), (proj2 (Z.ltb_lt _ _)) by lia.
    rewrite (proj2 (Z.leb_le _ _)), (proj2 (Z.ltb_lt _ _)) by lia.
    done.
Qed.

Lemma click_opens_the_card_under_it_witness :
  handle_click_on_grid (300, 500) 100 10 = Some 5.
Proof.
  apply (click_opens_the_card_under_it (300, 500) 100 10 5).
  split; [lia | reflexivity].
Defined.

(** Replacing one character by another goes character by character. *)
Lemma replace_char_step fuel (c d a : ascii) s :
  replace_from (S fuel) (String c "") (String d "") (String a s)
  = String (if Ascii.eqb a c then d else a)
           (replace_from fuel (String c "") (String d "") s).
Proof.
  simpl. destruct (ascii_dec c a) as [<-|Hne].
  - rewrite Ascii.eqb_refl. by destruct s.
  - by rewrite (proj2 (Ascii.eqb_neq a c)) by congruence.
Qed.

Lemma replace_char_removes fuel (c d : ascii) s :
  (String.length s < fuel)%nat → d ≠ c →
  occurs c (replace_from fuel (String c "") (String d "") s) = false.
Proof.
  revert s. induction fuel as [|fuel IH]; intros s Hlen Hdc; [lia|].
  destruct s as [|a s]; [done|]. simpl in Hlen.
  rewrite replace_char_step. cbn [occurs]. rewrite IH by (done || lia).
  destruct (Ascii.eqb_spec a c) as [->|Hac]; rewrite orb_false_r;
    by apply Ascii.eqb_neq.
Qed.

Lemma replace_char_keeps_out fuel (c d x : ascii) s :
  (String.length s < fuel)%nat → x ≠ d →
  occurs x s = false →
  occurs x (replace_from fuel (String c "") (String d "") s) = false.
Proof.
  revert s. induction fuel as [|fuel IH]; intros s Hlen Hxd Hx; [lia|].
  destruct s as [|a s]; [done|]. simpl in Hlen.
  cbn [occurs] in Hx. apply orb_false_elim in Hx as [Hax Hx].
  rewrite replace_char_step. cbn [occurs]. rewrite IH by (done || lia).
  rewrite orb_false_r. destruct (Ascii.eqb a c); [|done].
  apply Ascii.eqb_neq. congruence.
Qed.


Lemma cache_name_flat (url : string) :
  occurs "/" (cache_name url) = false
  ∧ occurs "?" (cache_name url) = false
  ∧ occurs "&" (cache_name url) = false.
Proof.
  unfold cache_name, str_replace.
  set (s1 := replace_from _ "://" "_" url).
  set (s2 := replace_from _ "/" "_" s1).
  set (s3 := replace_from _ "?" "_" s2).
  assert (occurs "/" s2 = false) as H2
    by (apply replace_char_removes; [lia|discriminate]).
  assert (occurs "/" s3 = false) as H3
    by (apply replace_char_keeps_out; [lia|discriminate|done]).
  assert (occurs "?" s3 = false) as H3'
    by (apply replace_char_removes; [lia|discriminate]).
  split_and!.
  - apply replace_char_keeps_out; [lia|discriminate|done].
  - apply replace_char_keeps_out; [lia|discriminate|done].
  - apply replace_char_removes; [lia|discriminate].
Qed.


Lemma replace_char_absent fuel (c d : ascii) s :
  occurs c s = false → replace_from fuel (String c "") (String d "") s = s.
Proof.
  revert s. induction fuel as [|fuel IH]; intros s Hc; [done|].
  destruct s as [|a s]; [done|].
  cbn [occurs] in Hc. apply orb_false_elim in Hc as [Hac Hc].
  by rewrite replace_char_step, Hac, IH.
Qed.

Lemma replace_scheme_absent fuel s :
  occurs "/" s = false → replace_from fuel "://" "_" s = s.
Proof.
  revert s. induction fuel as [|fuel IH]; intros s Hs; [done|].
  destruct s as [|a s]; [done|].
  cbn [occurs] in Hs. apply orb_false_elim in Hs as [Ha Hs].
  cbn [replace_from].
  assert (String.prefix "://" (String a s) = false) as ->.
  { change (String.prefix "://" (String a s))
      with (if ascii_dec ":" a then String.prefix "//" s else false).
    destruct (ascii_dec ":" a); [|done].
    destruct s as [|b s]; [done|].
    cbn [occurs] in Hs. apply orb_false_elim in Hs as [Hb _].
    apply Ascii.eqb_neq in Hb.
    change (String.prefix "//" (String b s))
      with (if ascii_dec "/" b then String.prefix "/" s else false).
    destruct (ascii_dec "/" b); [congruence|done]. }
  by rewrite IH.
Qed.

(** X16. The cache is not injective: a URL and the URL spelt like its
    cache name share one cache file. *)
Theorem cache_name_collides_with_its_url (url : string) :
  cache_path_for_url (cache_name url) = cache_path_for_url url.
Proof.
  destruct (cache_name_flat url) as (Hslash & Hquery & Hamp).
  unfold cache_path_for_url. f_equal.
  unfold cache_name at 1. unfold str_replace.
  rewrite replace_scheme_absent by done.
  rewrite (replace_char_absent _ "/" "_") by done.
  rewrite (replace_char_absent _ "?" "_") by done.
  by rewrite (replace_char_absent _ "&" "_") by done.
Qed.

Example cache_path_of_a_url :
  cache_path_for_url "http://img.example/a/b.png?w=1&h=2"
  = "image_cache/http_img.example_a_b.png_w=1_h=2".
Proof. reflexivity. Qed.








